(** * Polynomial curve fitting against noisy sine samples (main.py)

    The four functions of main.py (sampler, fitter, evaluator, scorer) and
    the numpy operations they call, over an arbitrary real field [F] in
    place of float64: every statement below is about exact arithmetic.
    A numpy value is a 0-d scalar or a 1-d array; an operation that raises
    in Python returns [None]. *)

From HB Require Import structures.
From mathcomp Require Import boot order algebra.
Set Implicit Arguments.
Unset Strict Implicit.
Unset Printing Implicit Defensive.
Import GRing.Theory Num.Theory Order.POrderTheory.
Local Open Scope ring_scope.

Section Program.
Variable F : realFieldType.

(** ** numpy values and the numpy operations the program uses *)

Inductive ndarray : Type :=
  | Scalar of F
  | Array of seq F.

Definition shape (v : ndarray) : seq nat :=
  match v with
  | Scalar _ => [::]
  | Array s => [:: size s]
  end.

Definition vmap (f : F -> F) (v : ndarray) : ndarray :=
  match v with
  | Scalar a => Scalar (f a)
  | Array s => Array [seq f a | a <- s]
  end.

(** Element-wise binary operation with numpy's broadcasting rule for
    dimensions 0 and 1: a scalar or a one-element array stretches to the
    other operand, two arrays of different lengths raise ValueError. *)
Definition broadcast (op : F -> F -> F) (u v : ndarray) : option ndarray :=
  match u, v with
  | Scalar a, Scalar b => Some (Scalar (op a b))
  | Scalar a, Array t => Some (Array [seq op a b | b <- t])
  | Array s, Scalar b => Some (Array [seq op a b | a <- s])
  | Array s, Array t =>
      if size s == size t then Some (Array [seq op p.1 p.2 | p <- zip s t])
      else if size s == 1%N then Some (Array [seq op (head 0 s) b | b <- t])
      else if size t == 1%N then Some (Array [seq op a (head 0 t) | a <- s])
      else None
  end.

(** [v ** k] for a Python int [k >= 0]. *)
Definition np_power (v : ndarray) (k : nat) : ndarray :=
  vmap (fun a => a ^+ k) v.

(** [np.sum]. *)
Definition np_sum (v : ndarray) : F :=
  match v with
  | Scalar a => a
  | Array s => \sum_(a <- s) a
  end.

(** [np.linspace(start, stop, num)] with the default [endpoint=True]:
    [arange(num) * step + start] with [step = (stop - start) / (num - 1)],
    the last entry overwritten by [stop] when [num > 1]; for [num = 1]
    there is no step and the only entry is [start]. *)
Definition linspace (start stop : F) (num : nat) : seq F :=
  let div := num.-1 in
  let delta := stop - start in
  if (1 < num)%N then
    rcons [seq i%:R * (delta / div%:R) + start | i <- iota 0 div] stop
  else [seq i%:R * delta + start | i <- iota 0 num].

(** [np.random.normal(loc, scale, size)]: the generator hands out standard
    normal variates [z 0, z 1, ...], each returned as [loc + scale * z i];
    a negative [scale] raises ValueError. *)
Definition normal (z : nat -> F) (loc scale : F) (size : nat) : option (seq F) :=
  if scale < 0 then None
  else Some [seq loc + scale * z i | i <- iota 0 size].

(** [np.vander(x, N, increasing=True)]: column [j] holds [x ^ j]. *)
Definition vander (x : seq F) (N : nat) : 'M[F]_(size x, N) :=
  \matrix_(i, j) x`_i ^+ j.

(** [np.linalg.pinv]: the Moore-Penrose pseudoinverse, here by a full-rank
    factorisation [A = B C]: [C^T (C C^T)^-1 (B^T B)^-1 B^T]; the Penrose
    equations and uniqueness are proved below.  numpy obtains it from a
    singular value decomposition and drops the singular values under a
    rounding tolerance ([rcond]), which exact arithmetic does not have. *)
Definition pinv_def m n (A : 'M[F]_(m, n)) : 'M[F]_(n, m) :=
  let B := col_base A in
  let C := row_base A in
  C^T *m invmx (C *m C^T) *m invmx (B^T *m B) *m B^T.

(** The formula is locked so that matrix rewriting does not look inside. *)
Definition pinv m n (A : 'M[F]_(m, n)) : 'M[F]_(n, m) := locked (pinv_def A).

(** 1-d arrays as column vectors and back. *)
Definition col_of_seq (n : nat) (s : seq F) : 'cV[F]_n := \col_(i < n) s`_i.

Definition seq_of_col (n : nat) (v : 'cV[F]_n) : seq F :=
  [seq v i 0 | i <- enum 'I_n].

(** ** The four functions of main.py *)

(** [np.sin] and [np.pi]: the sampler is parametric in both. *)
Variable sin : F -> F.
Variable pi : F.

Definition generate_noisy_sin_points (z : nat -> F) (num_points : nat)
    (noise_level : F) : option (ndarray * ndarray) :=
  let x := Array (linspace 0 1 num_points) in
  if normal z 0 noise_level num_points is Some noise then
    if broadcast +%R (vmap sin (vmap ( *%R (2 * pi)) x)) (Array noise)
      is Some y
    then Some (x, y) else None
  else None.

(** [X.T @ y] raises ValueError unless [y] has as many entries as [X] has
    rows. *)
Definition polynomial_regression (x y : seq F) (degree : nat)
    : option (seq F) :=
  if size x == size y then
    let X := vander x degree.+1 in
    let w_star := pinv (X^T *m X) *m X^T *m col_of_seq (size x) y in
    Some (seq_of_col w_star)
  else None.

(** The column vector of which [polynomial_regression] returns the
    entries. *)
Definition w_star (x y : seq F) (degree : nat) : 'cV[F]_degree.+1 :=
  let X := vander x degree.+1 in
  pinv (X^T *m X) *m X^T *m col_of_seq (size x) y.

(** Python's [sum] starts from the int 0 and adds the terms
    [w[i] * x**i] from left to right. *)
Definition polynomial (x : ndarray) (w : seq F) : option ndarray :=
  foldl (fun acc i =>
           obind (fun s => broadcast +%R s (vmap ( *%R w`_i) (np_power x i)))
                 acc)
        (Some (Scalar 0)) (iota 0 (size w)).

Definition mean_squared_error (y y_pred : ndarray) : option F :=
  omap (fun d => np_sum (np_power d 2) / 2%:R)
       (broadcast (fun a b => a - b) y y_pred).

(** The body of the driver's loop: fit, predict at the training points,
    score against the training values. *)
Definition training_error (x y : seq F) (degree : nat) : option F :=
  obind (fun w_star =>
    obind (fun y_pred => mean_squared_error (Array y) y_pred)
          (polynomial (Array x) w_star))
    (polynomial_regression x y degree).

(** ** Notions the specification speaks of *)

(** The value [sum_i w[i] * a^i] of the polynomial with coefficients [w]. *)
Definition peval (w : seq F) (a : F) : F :=
  \sum_(i < size w) w`_i * a ^+ i.

(** Sum of squared residuals of the polynomial [w] on the sample. *)
Definition ssr (x y w : seq F) : F :=
  \sum_(i < size x) (peval w x`_i - y`_i) ^+ 2.


Definition normsq k (v : 'cV[F]_k) : F := \sum_i v i 0 ^+ 2.

End Program.

Arguments Scalar {F}.
Arguments Array {F}.

(** A concrete sample over the rationals, on which the statements below
    are instantiated; a cubic Taylor polynomial and 22/7 stand in for
    [sin] and [pi], in which the sampler is parametric. *)
Definition sample_x : seq rat := [:: 0; 1; 2%:R].
Definition sample_y : seq rat := [:: 1; 3%:R; 2%:R].
Definition sample_w : seq rat := [:: 1; 2%:R].
Definition sin_taylor (a : rat) : rat := a - a ^+ 3 / 6%:R.
Definition pi_approx : rat := 22%:R / 7%:R.

(** ** The driver *)

Section Driver.
Variable F : realFieldType.
Variable sin : F -> F.
Variable pi : F.

(** A [for] loop whose body may raise: the results of the rounds in order,
    or nothing as soon as one round raises. *)
Fixpoint for_each (T R : Type) (body : T -> option R) (s : seq T)
    : option (seq R) :=
  if s is i :: s' then
    if body i is Some r then omap (cons r) (for_each body s') else None
  else Some [::].

(** One round of the loop of [__main__]: the degree and the error it
    prints, and the curve [(x_plot, y_plot)] it hands to the plot. *)
Definition main_loop_body (x y : seq F) (i : nat)
    : option (nat * F * (ndarray F * ndarray F)) :=
  if polynomial_regression x y i is Some w_star then
    if polynomial (Array x) w_star is Some y_pred then
      if mean_squared_error (Array y) y_pred is Some error_value then
        let x_plot := Array (linspace 0 1 100) in
        if polynomial x_plot w_star is Some y_plot then
          Some (i, error_value, (x_plot, y_plot))
        else None
      else None
    else None
  else None.

(** [__main__]: ten samples with the default noise level 0.1, then one
    round for each of the degrees 0, 1, 3, 9. [np.vander] accepts 1-d
    arrays only. *)
Definition main (z : nat -> F)
    : option (seq (nat * F * (ndarray F * ndarray F))) :=
  if generate_noisy_sin_points sin pi z 10 (10%:R^-1)
    is Some (Array x, Array y)
  then for_each (main_loop_body x y) [:: 0; 1; 3; 9]%N
  else None.

End Driver.

(** * The pseudoinverse *)

Section PseudoInverse.
Variable F : realFieldType.

Lemma pinvE m n (A : 'M[F]_(m, n)) :
  pinv A = (row_base A)^T *m invmx (row_base A *m (row_base A)^T)
           *m invmx ((col_base A)^T *m col_base A) *m (col_base A)^T.
Proof. by rewrite /pinv -lock. Qed.

Lemma gram_diag m n (A : 'M[F]_(m, n)) i :
  (A *m A^T) i i = \sum_j A i j ^+ 2.
Proof. by rewrite mxE; apply: eq_bigr => j _; rewrite mxE expr2. Qed.

Lemma gram_eq0 m n (A : 'M[F]_(m, n)) : A *m A^T = 0 -> A = 0.
Proof.
move=> AA0; apply/matrixP => i j; rewrite mxE.
have := gram_diag A i; rewrite AA0 mxE => /esym/eqP.
rewrite psumr_eq0; first by move=> k _; exact: sqr_ge0.
by move/allP/(_ j (mem_index_enum j)); rewrite /= sqrf_eq0 => /eqP.
Qed.

Lemma gram_unit m n (C : 'M[F]_(m, n)) : row_free C -> C *m C^T \in unitmx.
Proof.
move=> freeC; rewrite -row_free_unit -kermx_eq0.
apply/eqP/gram_eq0; set K := kermx _.
have K0 : K *m (C *m C^T) = 0 by exact: mulmx_ker.
have : (K *m C) *m (K *m C)^T = 0.
  by rewrite trmx_mul mulmxA -[K *m C *m _]mulmxA K0 mul0mx.
move/gram_eq0 => KC0.
have : (K <= kermx C)%MS by apply/sub_kermxP.
by move: freeC; rewrite -kermx_eq0 => /eqP-> /submx0null->; rewrite mul0mx.
Qed.

Lemma row_base_gram_unit m n (A : 'M[F]_(m, n)) :
  row_base A *m (row_base A)^T \in unitmx.
Proof. exact/gram_unit/row_base_free. Qed.

Lemma col_base_gram_unit m n (A : 'M[F]_(m, n)) :
  (col_base A)^T *m col_base A \in unitmx.
Proof.
rewrite -{2}[col_base A]trmxK; apply: gram_unit.
by rewrite /row_free mxrank_tr; exact: col_base_full.
Qed.

Lemma mulmx_pinv m n (A : 'M[F]_(m, n)) :
  A *m pinv A =
  col_base A *m invmx ((col_base A)^T *m col_base A) *m (col_base A)^T.
Proof.
rewrite pinvE -[X in X *m _ = _]mulmx_base.
move: (row_base_gram_unit A); move: (col_base A) (row_base A) => B C unitC.
by rewrite !mulmxA -[B *m C *m _]mulmxA mulmxK.
Qed.

Lemma pinv_mulmx m n (A : 'M[F]_(m, n)) :
  pinv A *m A =
  (row_base A)^T *m invmx (row_base A *m (row_base A)^T) *m row_base A.
Proof.
rewrite pinvE -[X in _ *m X = _]mulmx_base.
move: (col_base_gram_unit A); move: (col_base A) (row_base A) => B C unitB.
by rewrite !mulmxA -[_ *m B^T *m B]mulmxA mulmxKV.
Qed.

(* The four Penrose equations, which characterise the pseudoinverse. *)
Lemma pinv_mulK m n (A : 'M[F]_(m, n)) : A *m pinv A *m A = A.
Proof.
rewrite -mulmxA pinv_mulmx -[X in X *m _ = _]mulmx_base -[RHS]mulmx_base.
move: (row_base_gram_unit A); move: (col_base A) (row_base A) => B C unitC.
by rewrite !mulmxA -[B *m C *m _]mulmxA mulmxK.
Qed.

Lemma pinv_Kmul m n (A : 'M[F]_(m, n)) : pinv A *m A *m pinv A = pinv A.
Proof.
rewrite pinv_mulmx pinvE.
move: (row_base_gram_unit A); move: (col_base A) (row_base A) => B C unitC.
by rewrite !mulmxA -[_ *m C *m C^T]mulmxA mulmxKV.
Qed.

Lemma mulmx_pinv_sym m n (A : 'M[F]_(m, n)) : (A *m pinv A)^T = A *m pinv A.
Proof.
rewrite mulmx_pinv; move: (col_base A) => B.
by rewrite !trmx_mul trmxK trmx_inv trmx_mul trmxK mulmxA.
Qed.

Lemma pinv_mulmx_sym m n (A : 'M[F]_(m, n)) : (pinv A *m A)^T = pinv A *m A.
Proof.
rewrite pinv_mulmx; move: (row_base A) => C.
by rewrite !trmx_mul trmxK trmx_inv trmx_mul trmxK mulmxA.
Qed.


Lemma pinv_uniq m n (A : 'M[F]_(m, n)) (G : 'M[F]_(n, m)) :
  A *m G *m A = A -> G *m A *m G = G ->
  (A *m G)^T = A *m G -> (G *m A)^T = G *m A -> G = pinv A.
Proof.
move=> AGA GAG AGs GAs; set H := pinv A.
have AHA : A *m H *m A = A := pinv_mulK A.
have HAH : H *m A *m H = H := pinv_Kmul A.
have AHs : (A *m H)^T = A *m H := mulmx_pinv_sym A.
have HAs : (H *m A)^T = H *m A := pinv_mulmx_sym A.
have AGH : A *m G = A *m H.
  rewrite -AGs -[X in (X *m _)^T]AHA -mulmxA trmx_mul AGs AHs.
  by rewrite mulmxA AGA.
have GAH : G *m A = H *m A.
  rewrite -GAs -[X in (_ *m X)^T]AHA -[A *m H *m A]mulmxA mulmxA.
  by rewrite trmx_mul GAs HAs -!mulmxA [A *m (G *m A)]mulmxA AGA.
by rewrite -GAG GAH -mulmxA AGH mulmxA.
Qed.

Lemma pinv_unit n (A : 'M[F]_n) : A \in unitmx -> pinv A = invmx A.
Proof.
move=> unitA; rewrite -[LHS](mulKmx unitA) -[A *m pinv A](mulmxK unitA).
by rewrite pinv_mulK mulmxV // mulmx1.
Qed.

Lemma pinv0 m n : pinv (0 : 'M[F]_(m, n)) = 0.
Proof. by rewrite -[LHS]pinv_Kmul mulmx0 mul0mx. Qed.

End PseudoInverse.

Section LeastSquares.
Variable F : realFieldType.

Lemma normsq_mx k (v : 'cV[F]_k) : (v^T *m v) 0 0 = normsq v.
Proof. by rewrite mxE; apply: eq_bigr => i _; rewrite mxE expr2. Qed.

Lemma normsq_ge0 k (v : 'cV[F]_k) : 0 <= normsq v.
Proof. by apply: sumr_ge0 => i _; exact: sqr_ge0. Qed.


Lemma normsqD_orth k (u v : 'cV[F]_k) :
  u^T *m v = 0 -> normsq (v + u) = normsq v + normsq u.
Proof.
move=> uv0; have vu0 : v^T *m u = 0 by rewrite -[LHS]trmxK trmx_mul trmxK uv0 trmx0.
rewrite -!normsq_mx [(v + u)^T]linearD /= mulmxDl !mulmxDr uv0 vu0 addr0 add0r.
by rewrite mxE.
Qed.

Variables (n d : nat) (X : 'M[F]_(n, d)) (y : 'cV[F]_n).
Let M := X^T *m X.
Let w := pinv M *m X^T *m y.

Lemma gramT_sym : M^T = M.
Proof. by rewrite /M trmx_mul trmxK. Qed.

Lemma gram_pinv_proj : M *m (M *m pinv M) = M.
Proof.
by rewrite -[LHS]trmxK trmx_mul mulmx_pinv_sym gramT_sym pinv_mulK gramT_sym.
Qed.

Lemma normal_eq_mx : M *m pinv M *m X^T = X^T.
Proof.
apply/esym/subr0_eq; set E := (_ - _).
apply: (@gram_eq0 F).
have ET : E^T = X - X *m (M *m pinv M).
  by rewrite /E linearB /= trmxK trmx_mul trmxK mulmx_pinv_sym.
have XE : X^T *m E^T = 0.
  by rewrite ET mulmxBr mulmxA -/M gram_pinv_proj subrr.
by rewrite {1}/E mulmxBl -mulmxA XE mulmx0 subrr.
Qed.

Lemma normal_eq : M *m w = X^T *m y.
Proof. by rewrite /w mulmxA (mulmxA M) normal_eq_mx. Qed.

Lemma lsq_pythagoras (v : 'cV[F]_d) :
  normsq (X *m v - y) = normsq (X *m w - y) + normsq (X *m (v - w)).
Proof.
rewrite -normsqD_orth; last by congr normsq; rewrite mulmxBr [RHS]addrC addrA subrK.
by rewrite trmx_mul -mulmxA mulmxBr mulmxA -/M normal_eq subrr mulmx0.
Qed.

Lemma lsq_min (v : 'cV[F]_d) : normsq (X *m w - y) <= normsq (X *m v - y).
Proof. by rewrite (lsq_pythagoras v) lerDl normsq_ge0. Qed.



End LeastSquares.

(** * Arrays and column vectors *)

Section Vectors.
Variable F : realFieldType.
Implicit Types (s w x y : seq F).

Lemma size_seq_of_col n (v : 'cV[F]_n) : size (seq_of_col v) = n.
Proof. by rewrite size_map size_enum_ord. Qed.

Lemma nth_seq_of_col n (v : 'cV[F]_n) (i : 'I_n) : (seq_of_col v)`_i = v i 0.
Proof. by rewrite (nth_map i) ?size_enum_ord // nth_ord_enum. Qed.

Lemma seq_of_colK n (v : 'cV[F]_n) : col_of_seq n (seq_of_col v) = v.
Proof. by apply/colP => i; rewrite mxE nth_seq_of_col. Qed.


Lemma vander_mul_col x d w (i : 'I_(size x)) :
  size w = d -> (vander x d *m col_of_seq d w) i 0 = peval w x`_i.
Proof.
move=> <-; rewrite mxE /peval; apply: eq_bigr => j _.
by rewrite !mxE mulrC.
Qed.

Lemma normsq_residual x y d w :
  size w = d ->
  normsq (vander x d *m col_of_seq d w - col_of_seq (size x) y) = ssr x y w.
Proof.
move=> sz_w; apply: eq_bigr => i _.
by rewrite -(vander_mul_col i sz_w) !mxE.
Qed.

End Vectors.

(** * The evaluator and the scorer on arrays *)

Section Evaluator.
Variable F : realFieldType.
Implicit Types (s t w x y : seq F) (v : ndarray F).

Lemma shape_vmap (f : F -> F) v : shape (vmap f v) = shape v.
Proof. by case: v => //= s; rewrite size_map. Qed.

Lemma broadcast_same (op : F -> F -> F) (f g : F -> F) v :
  broadcast op (vmap f v) (vmap g v) = Some (vmap (fun a => op (f a) (g a)) v).
Proof.
case: v => //= s; rewrite !size_map eqxx zip_map -map_comp.
by congr (Some (Array _)); apply: eq_map.
Qed.

Lemma iota_rcons k : iota 0 k.+1 = rcons (iota 0 k) k.
Proof. by rewrite -addn1 iotaD add0n cats1. Qed.

(** The accumulator of the sum after [k] terms. *)
Lemma polynomial_prefix v w k :
  foldl (fun acc i =>
           obind (fun r => broadcast +%R r (vmap ( *%R w`_i) (np_power v i)))
                 acc)
        (Some (Scalar 0)) (iota 0 k)
  = Some (if k is 0 then Scalar 0
          else vmap (fun a => \sum_(i < k) w`_i * a ^+ i) v).
Proof.
elim: k => [//|k IHk]; rewrite iota_rcons foldl_rcons {}IHk /= /np_power.
case: k => [|k].
  case: v => [a|s] /=; first by rewrite big_ord1 add0r.
  rewrite -!map_comp; congr (Some (Array _)); apply: eq_map => a /=.
  by rewrite big_ord1 add0r.
case: v => [a|s] /=; first by rewrite [in RHS]big_ord_recr.
rewrite !size_map eqxx -!map_comp zip_map -map_comp.
congr (Some (Array _)); apply: eq_map => a /=.
by rewrite [in RHS]big_ord_recr.
Qed.

Lemma polynomial_nonempty v w :
  w != [::] -> polynomial v w = Some (vmap (peval w) v).
Proof. by rewrite /polynomial polynomial_prefix; case: w. Qed.

Lemma zip_sum_sqr s t :
  size s = size t ->
  \sum_(p <- zip s t) (p.1 - p.2) ^+ 2 = \sum_(i < size s) (s`_i - t`_i) ^+ 2.
Proof.
move=> sz; rewrite (big_nth (0, 0)) size_zip -sz minnn big_mkord.
by apply: eq_bigr => i _; rewrite nth_zip.
Qed.

Lemma mean_squared_error_arrays y t :
  size y = size t ->
  mean_squared_error (Array y) (Array t)
  = Some ((\sum_(i < size y) (y`_i - t`_i) ^+ 2) / 2%:R).
Proof.
move=> sz; rewrite /mean_squared_error /= sz eqxx /= !big_map.
by rewrite zip_sum_sqr // sz.
Qed.

Lemma peval_pad w k a : peval (w ++ nseq k 0) a = peval w a.
Proof.
rewrite /peval -!(big_mkord xpredT (fun i => _`_i * a ^+ i)) size_cat size_nseq.
rewrite (@big_cat_nat _ _ _ (size w)) ?leq_addr //=.
have -> : \sum_(size w <= i < size w + k) (w ++ nseq k 0)`_i * a ^+ i = 0.
  rewrite big_nat_cond; apply: big1 => i /andP[/andP[le_i _] _].
  by rewrite nth_cat ltnNge le_i /= nth_nseq if_same mul0r.
rewrite addr0 big_nat_cond [RHS]big_nat_cond; apply: eq_bigr => i.
by rewrite andbT nth_cat => /andP[_ ->].
Qed.

Lemma ssr_pad x y w k : ssr x y (w ++ nseq k 0) = ssr x y w.
Proof. by apply: eq_bigr => i _; rewrite peval_pad. Qed.

End Evaluator.

(** * The fitter *)

Section Fitter.
Variable F : realFieldType.
Implicit Types (s t v w x y : seq F).


Lemma polynomial_regression_some x y D :
  size x = size y ->
  polynomial_regression x y D = Some (seq_of_col (w_star x y D)).
Proof. by move/eqP => sz; rewrite /polynomial_regression sz. Qed.

Lemma ssr_w_star x y D :
  ssr x y (seq_of_col (w_star x y D))
  = normsq (vander x D.+1 *m w_star x y D - col_of_seq (size x) y).
Proof. by rewrite -(@normsq_residual _ _ _ D.+1) ?size_seq_of_col ?seq_of_colK. Qed.

Lemma ssr_min x y D v :
  size v = D.+1 -> ssr x y (seq_of_col (w_star x y D)) <= ssr x y v.
Proof.
by move=> sz_v; rewrite ssr_w_star -(normsq_residual _ _ sz_v); exact: lsq_min.
Qed.


End Fitter.

(** * Fit error, interpolation and the constant fit *)

Section FitProperties.
Variable F : realFieldType.
Implicit Types (s t v w x y : seq F).

Lemma seq_of_col_neq0 n (c : 'cV[F]_n.+1) : seq_of_col c != [::].
Proof. by rewrite -size_eq0 size_seq_of_col. Qed.

Lemma mean_squared_error_ssr x y w :
  size x = size y ->
  mean_squared_error (Array y) (Array [seq peval w a | a <- x])
  = Some (ssr x y w / 2%:R).
Proof.
move=> sz; rewrite mean_squared_error_arrays ?size_map // -sz.
congr (Some (_ / _)); apply: eq_bigr => i _.
by rewrite (nth_map 0) // -opprB sqrrN.
Qed.

Lemma training_error_some x y D :
  size x = size y ->
  training_error x y D
  = Some (ssr x y (seq_of_col (w_star x y D)) / 2%:R).
Proof.
move=> sz; rewrite /training_error polynomial_regression_some //=.
by rewrite polynomial_nonempty ?seq_of_col_neq0 //= mean_squared_error_ssr.
Qed.


(** A polynomial of degree at most [D] that vanishes at [D + 1] distinct
    points is zero: the design matrix on distinct points has independent
    columns. *)
Lemma vander_tr_ker x D (u : 'rV[F]_D.+1) :
  uniq x -> size x = D.+1 -> u *m (vander x D.+1)^T = 0 -> u = 0.
Proof.
move=> uniq_x sz_x uX0; pose p := \poly_(j < D.+1) u 0 (inord j).
have p0 : p = 0.
  apply: (@roots_geq_poly_eq0 _ p x) => //; last by rewrite sz_x size_poly.
  apply/allP => a /(nthP 0)[i lt_i <-]; rewrite /root horner_poly.
  have e0 : (u *m (vander x D.+1)^T) 0 (Ordinal lt_i) = 0 by rewrite uX0 mxE.
  by apply/eqP; rewrite -[RHS]e0 mxE; apply: eq_bigr => j _; rewrite !mxE inord_val.
apply/rowP => j; rewrite mxE -[j]inord_val.
by have := coef_poly D.+1 (fun k => u 0 (inord k)) j; rewrite -/p p0 coef0 ltn_ord.
Qed.

Lemma vander_row_free x D :
  uniq x -> size x = D.+1 -> row_free (vander x D.+1).
Proof.
move=> uniq_x sz_x.
have : row_free (vander x D.+1)^T.
  rewrite -kermx_eq0; apply/eqP/row_matrixP => i; rewrite row0.
  by apply: (vander_tr_ker uniq_x sz_x); rewrite -row_mul mulmx_ker row0.
by rewrite /row_free mxrank_tr => /eqP->; rewrite sz_x.
Qed.

Lemma vander_w_star x y D :
  uniq x -> size x = D.+1 ->
  vander x D.+1 *m w_star x y D = col_of_seq (size x) y.
Proof.
move=> uniq_x sz_x; rewrite /w_star /=.
set X := vander x D.+1; set c := col_of_seq _ _; set w := _ *m c.
have : X^T *m (X *m w - c) = 0 by rewrite mulmxBr mulmxA normal_eq subrr.
move/(congr1 trmx); rewrite trmx_mul trmxK trmx0 => /sub_kermxP.
have /eqP-> : kermx X == 0 by rewrite kermx_eq0 vander_row_free.
by rewrite submx0 trmx_eq0 subr_eq0 => /eqP.
Qed.


Lemma vander1 x : vander x 1 = const_mx 1.
Proof. by apply/matrixP => i j; rewrite !mxE ord1 expr0. Qed.

Lemma gram_const1 n : (const_mx 1 : 'M[F]_(n, 1))^T *m const_mx 1 = n%:R%:M.
Proof.
apply/matrixP => i j; rewrite !ord1 !mxE eqxx mulr1n.
rewrite (eq_bigr (fun=> 1)) ?sumr_const ?card_ord //.
by move=> k _; rewrite !mxE mulr1.
Qed.

Lemma pinv_scalar n (a : F) : a != 0 -> pinv (a%:M : 'M[F]_n) = a^-1%:M.
Proof.
move=> a0; rewrite pinv_unit ?invmx_scalar //.
by rewrite unitmxE det_scalar unitfE expf_neq0.
Qed.

Lemma w_star0 x y :
  (0 < size x)%N ->
  w_star x y 0 = ((\sum_(i < size x) y`_i) / (size x)%:R)%:M.
Proof.
move=> x_gt0; rewrite /w_star /= vander1 gram_const1.
rewrite pinv_scalar ?pnatr_eq0 -?lt0n // -mulmxA mul_scalar_mx.
apply/matrixP => i j; rewrite !ord1 !mxE eqxx mulr1n mulrC; congr (_ / _).
by apply: eq_bigr => k _; rewrite !mxE mul1r.
Qed.

Lemma seq_of_col1 (c : 'cV[F]_1) : seq_of_col c = [:: c 0 0].
Proof.
apply: (@eq_from_nth _ 0); rewrite size_seq_of_col // => i; rewrite ltnS leqn0.
by move/eqP->; rewrite (nth_seq_of_col c 0).
Qed.

End FitProperties.

(** * The sampler *)

Section Sampler.
Variable F : realFieldType.
Implicit Types (s t x y : seq F) (z : nat -> F).

Lemma size_linspace (a b : F) n : size (linspace a b n) = n.
Proof.
rewrite /linspace; case: ltnP => [gt1|_]; last by rewrite size_map size_iota.
by rewrite size_rcons size_map size_iota prednK // ltnW.
Qed.

Lemma linspace01 n :
  linspace (0 : F) 1 n = [seq i%:R / n.-1%:R | i <- iota 0 n].
Proof.
rewrite /linspace subr0; case: ltnP => [gt1|le1].
  case: n gt1 => [//|d]; rewrite ltnS -[d.+1.-1]/d => d_gt0.
  rewrite iota_rcons map_rcons divff ?pnatr_eq0 -?lt0n //; congr rcons.
  by apply: eq_map => i; rewrite addr0 div1r.
by case: n le1 => [//|[|//]] _ /=; rewrite !mul0r addr0.
Qed.

Lemma last_linspace (a b : F) n : (1 < n)%N -> last 0 (linspace a b n) = b.
Proof. by rewrite /linspace => ->; rewrite last_rcons. Qed.

Lemma normal_scale0 z n : normal z 0 0 n = Some (nseq n 0).
Proof.
rewrite /normal ltxx; congr Some.
apply: (@eq_from_nth _ 0); rewrite size_map size_iota ?size_nseq // => i lt_i.
by rewrite (nth_map 0%N) ?size_iota // nth_nseq lt_i mul0r addr0.
Qed.

Lemma add_zeros s n :
  size s = n -> [seq p.1 + p.2 | p <- zip s (nseq n (0 : F))] = s.
Proof. by elim: s n => [|a s IHs] [|n] //= [/IHs->]; rewrite addr0. Qed.

End Sampler.

(** * The scorer *)

Section Scorer.
Variable F : realFieldType.
Implicit Types (s t y : seq F) (u v d : ndarray F).

Lemma zip_subC s t :
  [seq p.1 - p.2 | p <- zip t s] = [seq - (p.1 - p.2) | p <- zip s t].
Proof. by elim: s t => [|a s IHs] [|b t] //=; rewrite IHs opprB. Qed.

Lemma broadcast_subC u v :
  broadcast (fun a b => a - b) v u
  = omap (vmap -%R) (broadcast (fun a b => a - b) u v).
Proof.
case: u v => [a|s] [b|t] /=.
- by rewrite opprB.
- by rewrite -map_comp; congr (Some (Array _)); apply: eq_map => c /=; rewrite opprB.
- by rewrite -map_comp; congr (Some (Array _)); apply: eq_map => c /=; rewrite opprB.
rewrite [size t == _]eq_sym; case: ifP => [_|ne_st] /=.
  by rewrite zip_subC -map_comp.
case: ifP => [/eqP t1|_]; case: ifP => [/eqP s1|_] //=.
- by rewrite s1 t1 eqxx in ne_st.
- by rewrite -map_comp; congr (Some (Array _)); apply: eq_map => c /=; rewrite opprB.
- by rewrite -map_comp; congr (Some (Array _)); apply: eq_map => c /=; rewrite opprB.
Qed.

Lemma np_power2_opp d : np_power (vmap -%R d) 2 = np_power d 2.
Proof.
case: d => [a|s] /=; first by rewrite sqrrN.
by rewrite -map_comp; congr Array; apply: eq_map => a /=; rewrite sqrrN.
Qed.

Lemma mean_squared_errorC u v :
  mean_squared_error u v = mean_squared_error v u.
Proof.
rewrite /mean_squared_error (broadcast_subC v u).
by case: (broadcast _ v u) => [d|] //=; rewrite np_power2_opp.
Qed.

Lemma mean_squared_error_self y :
  mean_squared_error (Array y) (Array y) = Some 0.
Proof.
rewrite mean_squared_error_arrays // big1 ?mul0r // => i _.
by rewrite subrr expr0n.
Qed.

End Scorer.

(** * The definitions on concrete inputs *)

Example linspace_three_points : linspace (0 : rat) 1 3 = [:: 0; 1 / 2%:R; 1].
Proof. by apply/eqP; vm_compute. Qed.

Example linspace_one_point : linspace (0 : rat) 1 1 = [:: 0].
Proof. by apply/eqP; vm_compute. Qed.

Example polynomial_on_sample :
  polynomial (Array sample_x) sample_w = Some (Array [:: 1; 3%:R; 5%:R]).
Proof.
by rewrite /polynomial /=; congr (Some (Array _)); apply/eqP; vm_compute.
Qed.

Example mean_squared_error_on_sample :
  mean_squared_error (Array sample_y) (Array sample_x) = Some (5%:R / 2%:R).
Proof.
rewrite /mean_squared_error /= !big_cons big_nil.
by congr Some; apply/eqP; vm_compute.
Qed.

(** One point, difference 1: the score is 1/2, the mean of the squared
    differences would be 1. *)
Example mean_squared_error_not_mean (F : realFieldType) :
  mean_squared_error (Array [:: 1 : F]) (Array [:: 0]) = Some (2%:R^-1)
  /\ 2%:R^-1 != 1 :> F.
Proof.
split; last by rewrite invr_eq1 (eqr_nat F 2 1).
by rewrite /mean_squared_error /= big_cons big_nil subr0 expr1n addr0 div1r.
Qed.

(** * Properties of the four functions *)

Section Claims.
Variable F : realFieldType.
Variable sin : F -> F.
Variable pi : F.
Implicit Types (v w x y : seq F) (z : nat -> F).


(** C2: on equal-length arrays the scorer returns half the sum of the
    squared differences; the length does not divide it. *)
Theorem mean_squared_error_half_sum y y_pred :
  size y = size y_pred ->
  mean_squared_error (Array y) (Array y_pred)
  = Some ((\sum_(i < size y) (y`_i - y_pred`_i) ^+ 2) / 2%:R).
Proof. exact: mean_squared_error_arrays. Qed.

(** C3: for a non-empty coefficient vector [w] the evaluator returns
    [sum_i w[i] * x^i], the plain sum of the powers, at the scalar [x] or
    at every entry of the array [x]; the result has the shape of [x]. *)
Theorem polynomial_power_sum (x : ndarray F) w :
  (0 < size w)%N ->
  exists r,
    [/\ polynomial x w = Some r,
        r = vmap (fun a => \sum_(i < size w) w`_i * a ^+ i) x
      & shape r = shape x].
Proof.
move=> w_gt0; exists (vmap (peval w) x); split=> //; last exact: shape_vmap.
by apply: polynomial_nonempty; rewrite -size_eq0 -lt0n.
Qed.


(** C5: on a non-empty sample the degree-0 fit is the single coefficient
    [mean(y)]. *)
Theorem polynomial_regression_degree0_mean x y :
  size x = size y -> (0 < size x)%N ->
  polynomial_regression x y 0 = Some [:: (\sum_(a <- y) a) / (size y)%:R].
Proof.
move=> sz x_gt0; rewrite polynomial_regression_some // seq_of_col1.
rewrite w_star0 // mxE eqxx mulr1n sz (big_nth 0) big_mkord.
by congr (Some [:: _ / _]).
Qed.


(** C7 (amended): with noise level 0 the sampler returns [n] evenly spaced
    points [x_i = i / (n - 1)] starting at 0 and, when [n >= 2], ending at
    1, and [y_i = sin(2 pi x_i)] exactly; for [n = 1] the only point
    is 0. *)
Theorem generate_noisy_sin_points_noiseless z n :
  (0 < n)%N ->
  exists x y,
    [/\ generate_noisy_sin_points sin pi z n 0 = Some (Array x, Array y),
        size x = n /\ x`_0 = 0,
        (1 < n)%N -> (forall i, (i < n)%N -> x`_i = i%:R / n.-1%:R)
                     /\ last 0 x = 1,
        n = 1%N -> x = [:: 0]
      & y = [seq sin (2 * pi * a) | a <- x]].
Proof.
move=> n_gt0; exists (linspace 0 1 n).
exists [seq sin (2 * pi * a) | a <- linspace 0 1 n]; split=> //.
- rewrite /generate_noisy_sin_points normal_scale0 /=.
  by rewrite !size_map size_linspace size_nseq eqxx add_zeros -?map_comp
             ?size_map ?size_linspace.
- split; first exact: size_linspace.
  by rewrite linspace01; case: n n_gt0 => [//|n] _ /=; rewrite mul0r.
- move=> n_gt1; split; last exact: last_linspace.
  move=> i lt_i; rewrite linspace01 (nth_map 0%N) ?size_iota //.
  by rewrite nth_iota.
- by move=> ->; rewrite /linspace /= mul0r addr0.
Qed.

(** C8 (amended): the scorer is symmetric in its two arguments, whether
    or not they are equal. *)
Theorem mean_squared_error_symmetric (a b : ndarray F) :
  mean_squared_error a b = mean_squared_error b a.
Proof. exact: mean_squared_errorC. Qed.

(** C9: the scorer applied to a sequence against itself returns 0. *)
Theorem mean_squared_error_refl y :
  mean_squared_error (Array y) (Array y) = Some 0.
Proof. exact: mean_squared_error_self. Qed.

(** C10: on the empty coefficient vector the evaluator returns the scalar
    0 for every [x]; when [x] is an array this is not an array of the
    shape of [x]. *)
Theorem polynomial_empty_scalar (x : ndarray F) :
  polynomial x [::] = Some (Scalar 0)
  /\ forall s : seq F, shape (Scalar (0 : F)) <> shape (Array s).
Proof. by []. Qed.

End Claims.

(** * The claims on a concrete sample over the rationals *)


(** C2 on the sample. *)
Lemma mean_squared_error_half_sum_witness :
  size sample_y = size sample_x /\
  mean_squared_error (Array sample_y) (Array sample_x)
  = Some ((\sum_(i < 3) (sample_y`_i - sample_x`_i) ^+ 2) / 2%:R).
Proof.
split; first by [].
exact: (@mean_squared_error_half_sum _ sample_y sample_x erefl).
Defined.

(** C3 on the sample: the polynomial [1 + 2 a] at the three points. *)
Lemma polynomial_power_sum_witness :
  (0 < size sample_w)%N /\
  exists r,
    polynomial (Array sample_x) sample_w = Some r
    /\ shape r = shape (Array sample_x).
Proof.
split; first by [].
have [r [eval _ shape_r]] :=
  @polynomial_power_sum _ (Array sample_x) sample_w isT.
by exists r.
Defined.


(** C5 on the sample: the constant fit is the mean, 2. *)
Lemma polynomial_regression_degree0_mean_witness :
  [/\ size sample_x = size sample_y, (0 < size sample_x)%N
    & polynomial_regression sample_x sample_y 0 = Some [:: 2%:R]].
Proof.
split=> [//|//|].
rewrite (@polynomial_regression_degree0_mean _ sample_x sample_y erefl isT).
by rewrite /sample_y !big_cons big_nil; congr (Some [:: _]); apply/eqP.
Defined.


(** C7 (amended) at three points. *)
Lemma generate_noisy_sin_points_noiseless_witness :
  (0 < 3)%N /\
  exists x y,
    [/\ generate_noisy_sin_points sin_taylor pi_approx (fun=> 1) 3 0
        = Some (Array x, Array y),
        last 0 x = 1
      & y = [seq sin_taylor (2 * pi_approx * a) | a <- x]].
Proof.
split; first by [].
have [x [y [gen _ /(_ isT)[_ last_x] _ yE]]] :=
  @generate_noisy_sin_points_noiseless _ sin_taylor pi_approx (fun=> 1) 3 isT.
by exists x, y.
Defined.

(** C7 as stated fails for a single point: [linspace(0, 1, 1)] is [[0]],
    which does not reach 1. *)
Lemma generate_noisy_sin_points_single_point :
  ~ exists x y,
      generate_noisy_sin_points sin_taylor pi_approx (fun=> 1) 1 0
      = Some (Array x, Array y)
      /\ last 0 x = 1.
Proof.
case=> x [y []]; rewrite /generate_noisy_sin_points normal_scale0 /=.
by case=> <- _ /= /eqP; rewrite mul0r addr0 eq_sym oner_eq0.
Qed.

(** C8 as stated fails: the scores of [[0]] against [[1]] and of [[1]]
    against [[0]] agree although the sequences differ. *)
Lemma mean_squared_error_symmetric_distinct :
  ~ (mean_squared_error (Array [:: 0 : rat]) (Array [:: 1])
     = mean_squared_error (Array [:: 1]) (Array [:: 0])
     -> [:: 0] = [:: 1] :> seq rat).
Proof.
move=> claim; have [] := claim (mean_squared_errorC _ _).
by move/eqP; rewrite eq_sym oner_eq0.
Qed.

(** * Further properties of the evaluator and the scorer *)

Section EvaluatorScorerMore.
Variable F : realFieldType.
Implicit Types (s t w y : seq F) (x : ndarray F).

Lemma eq_vmap (f g : F -> F) x : f =1 g -> vmap f x = vmap g x.
Proof. by move=> fg; case: x => [a|s] /=; rewrite ?fg //; congr Array; exact: eq_map. Qed.

Lemma peval_horner w a : peval w a = (Poly w).[a].
Proof.
rewrite (@horner_coef_wide _ (size w)) ?size_Poly //.
by apply: eq_bigr => i _; rewrite coef_Poly.
Qed.

Lemma sum_sqr_ge0 y t : 0 <= \sum_(i < size y) (y`_i - t`_i) ^+ 2.
Proof. by apply: sumr_ge0 => i _; exact: sqr_ge0. Qed.

Lemma sum_sqr_eq0 y t :
  size y = size t ->
  (\sum_(i < size y) (y`_i - t`_i) ^+ 2 == 0) = (y == t).
Proof.
move=> sz; rewrite psumr_eq0; first by move=> i _; exact: sqr_ge0.
apply/allP/eqP => [eq_nth|eq_yt i _]; last by rewrite (congr1 (nth 0 ^~ i) eq_yt) subrr expr0n eqxx.
apply: (@eq_from_nth _ 0) => // i lt_i.
have := eq_nth (Ordinal lt_i) (mem_index_enum _).
by rewrite /= sqrf_eq0 subr_eq0 => /eqP.
Qed.

End EvaluatorScorerMore.

(** * Further properties of the sampler *)

Section SamplerMore.
Variable F : realFieldType.
Variable sin : F -> F.
Variable pi : F.
Implicit Types (s x y : seq F) (z : nat -> F).

Lemma linspace01_sorted n : sorted <%R (linspace (0 : F) 1 n).
Proof.
rewrite linspace01; case: n => [//|[//|d]].
rewrite sorted_map; apply: sub_sorted (iota_ltn_sorted 0 d.+2) => i j /= lt_ij.
by rewrite ltr_pM2r ?invr_gt0 ?ltr0n // ltr_nat.
Qed.

Lemma linspace01_range n : all (fun a => 0 <= a <= 1) (linspace (0 : F) 1 n).
Proof.
rewrite linspace01; apply/allP => a /mapP[i]; rewrite mem_iota add0n /= => lt_i ->.
rewrite divr_ge0 ?ler0n //=; case: n lt_i => [//|[|d]] lt_i.
  by rewrite invr0 mulr0 ler01.
by rewrite -[d.+2.-1]/d.+1 ler_pdivrMr ?ltr0n // mul1r ler_nat.
Qed.

Lemma generate_noisy_sin_pointsE z n sigma :
  generate_noisy_sin_points sin pi z n sigma
  = if sigma < 0 then None
    else Some (Array (linspace 0 1 n),
               Array [seq sin (2 * pi * (linspace 0 1 n)`_i) + sigma * z i
                     | i <- iota 0 n]).
Proof.
rewrite /generate_noisy_sin_points /normal; case: ifP => //= _.
rewrite !size_map size_linspace size_iota eqxx; congr (Some (_, Array _)).
apply: (@eq_from_nth _ 0) => [|i].
  by rewrite size_map size_zip !size_map size_linspace size_iota minnn.
rewrite size_map size_zip !size_map size_linspace size_iota minnn => lt_i.
rewrite (nth_map (0, 0)) ?size_zip ?size_map ?size_linspace ?size_iota ?minnn //.
rewrite nth_zip ?size_map ?size_linspace ?size_iota //=.
rewrite -map_comp (nth_map 0) ?size_linspace // [in LHS](nth_map 0%N) ?size_iota //.
by rewrite (nth_map 0%N) ?size_iota // nth_iota // add0n add0r.
Qed.

End SamplerMore.

(** * Further properties of the fitter *)

Section FitterMore.
Variable F : realFieldType.
Implicit Types (c s t v w x y : seq F).








End FitterMore.

(** * Linearity of the fit and the driver's loop *)

Section DriverFacts.
Variable F : realFieldType.
Implicit Types (c s t v w x y : seq F).

Lemma col_of_seq_lin n a y1 y2 :
  size y1 = n -> size y2 = n ->
  col_of_seq n [seq a * p.1 + p.2 | p <- zip y1 y2]
  = a *: col_of_seq n y1 + col_of_seq n y2.
Proof.
move=> sz1 sz2; apply/colP => i; rewrite !mxE.
by rewrite (nth_map (0, 0)) ?size_zip ?sz1 ?sz2 ?minnn // nth_zip ?sz1.
Qed.

Lemma seq_of_col_lin n a (u v : 'cV[F]_n) :
  seq_of_col (a *: u + v)
  = [seq a * p.1 + p.2 | p <- zip (seq_of_col u) (seq_of_col v)].
Proof.
apply: (@eq_from_nth _ 0) => [|i].
  by rewrite size_map size_zip !size_seq_of_col minnn.
rewrite size_seq_of_col => lt_i.
rewrite (nth_map (0, 0)) ?size_zip ?size_seq_of_col ?minnn //.
rewrite nth_zip ?size_seq_of_col //= !(nth_seq_of_col _ (Ordinal lt_i)).
by rewrite !mxE.
Qed.

Lemma w_star_lin x y1 y2 a D :
  size y1 = size x -> size y2 = size x ->
  w_star x [seq a * p.1 + p.2 | p <- zip y1 y2] D
  = a *: w_star x y1 D + w_star x y2 D.
Proof.
by move=> sz1 sz2; rewrite /w_star /= col_of_seq_lin // mulmxDr -scalemxAr.
Qed.

Lemma col_of_seq0 n k : col_of_seq n (nseq k (0 : F)) = 0.
Proof. by apply/colP => i; rewrite !mxE nth_nseq if_same. Qed.

Lemma seq_of_col0 n : seq_of_col (0 : 'cV[F]_n) = nseq n 0.
Proof.
apply: (@eq_from_nth _ 0); rewrite size_seq_of_col ?size_nseq // => i lt_i.
by rewrite (nth_seq_of_col _ (Ordinal lt_i)) mxE nth_nseq lt_i.
Qed.

Lemma ssr_w_star_mono x y D1 D2 :
  (D1 <= D2)%N ->
  ssr x y (seq_of_col (w_star x y D2)) <= ssr x y (seq_of_col (w_star x y D1)).
Proof.
move=> leD.
rewrite -(ssr_pad x y (seq_of_col (w_star x y D1)) (D2 - D1)); apply: ssr_min.
by rewrite size_cat size_nseq size_seq_of_col addSn subnKC.
Qed.

Lemma ssr_w_star_interp x y D :
  uniq x -> size x = D.+1 -> ssr x y (seq_of_col (w_star x y D)) = 0.
Proof.
move=> uniq_x sz_x; rewrite ssr_w_star vander_w_star // subrr.
by apply: big1 => i _; rewrite mxE expr0n.
Qed.

Lemma main_loop_body_some x y i :
  size x = size y ->
  let w := seq_of_col (w_star x y i) in
  main_loop_body x y i
  = Some (i, ssr x y w / 2%:R,
          (Array (linspace 0 1 100),
           Array [seq peval w a | a <- linspace 0 1 100])).
Proof.
move=> sz /=; rewrite /main_loop_body polynomial_regression_some //.
rewrite !polynomial_nonempty ?seq_of_col_neq0 //=.
by rewrite mean_squared_error_ssr.
Qed.

End DriverFacts.

Section DriverLoop.
Variable F : realFieldType.
Variable sin : F -> F.
Variable pi : F.
Implicit Types (x y : seq F) (z : nat -> F).

Lemma for_each_some (T R : Type) (body : T -> option R) (f : T -> R) s :
  (forall i, body i = Some (f i)) -> for_each body s = Some [seq f i | i <- s].
Proof. by move=> bodyE; elim: s => //= i s ->; rewrite bodyE. Qed.

Lemma mainE z :
  main sin pi z
  = for_each
      (main_loop_body (linspace 0 1 10)
         [seq sin (2 * pi * (linspace 0 1 10)`_i) + 10%:R^-1 * z i
         | i <- iota 0 10])
      [:: 0; 1; 3; 9]%N.
Proof.
by rewrite /main generate_noisy_sin_pointsE le_gtF ?invr_ge0 ?ler0n.
Qed.

Lemma main_rows x y :
  size x = size y -> uniq x -> size x = 10%N ->
  exists rows,
    [/\ for_each (main_loop_body x y) [:: 0; 1; 3; 9]%N = Some rows,
        [seq r.1.1 | r <- rows] = [:: 0; 1; 3; 9]%N,
        sorted (fun a b => b <= a) [seq r.1.2 | r <- rows],
        last 0 [seq r.1.2 | r <- rows] = 0
      & all (fun r => (shape r.2.1 == [:: 100%N]) && (shape r.2.2 == [:: 100%N]))
            rows].
Proof.
move=> sz uniq_x sz_x; eexists; split.
- by apply: for_each_some => i; exact: main_loop_body_some.
- by rewrite -map_comp.
- rewrite -map_comp /= !ler_pM2r ?invr_gt0 ?ltr0n //.
  by rewrite !ssr_w_star_mono.
- by rewrite -map_comp /= ssr_w_star_interp // mul0r.
- by rewrite all_map; apply/allP => i _; rewrite /= ?size_map ?size_linspace !eqxx.
Qed.

End DriverLoop.

(** * Further properties read off the code *)

Section MoreProperties.
Variable F : realFieldType.
Variable sin : F -> F.
Variable pi : F.
Implicit Types (c s t v w x y : seq F) (z : nat -> F).

(** X1: on the one-coefficient vector [[c]] the evaluator returns [c] at
    the scalar [x], or at every entry of the array [x]. *)
Theorem polynomial_constant (x : ndarray F) (c : F) :
  polynomial x [:: c] = Some (vmap (fun=> c) x).
Proof.
rewrite polynomial_nonempty //; congr Some; apply: eq_vmap => a.
by rewrite /peval big_ord1 expr0 mulr1.
Qed.

(** X2: the evaluator's power sum is the value of the polynomial with
    coefficient list [w], as Horner's rule computes it. *)
Theorem polynomial_horner (x : ndarray F) w :
  (0 < size w)%N ->
  polynomial x w = Some (vmap (fun a => (Poly w).[a]) x).
Proof.
move=> w_gt0; rewrite polynomial_nonempty -?size_eq0 -?lt0n //.
by congr Some; apply: eq_vmap => a; exact: peval_horner.
Qed.

(** X3: on equal-length arrays the score is never negative, and it is 0
    exactly when the two arrays are equal. *)
Theorem mean_squared_error_definite y t :
  size y = size t ->
  exists e,
    [/\ mean_squared_error (Array y) (Array t) = Some e, 0 <= e
      & e = 0 <-> y = t].
Proof.
move=> sz; eexists; split; first exact: mean_squared_error_arrays.
  by rewrite divr_ge0 ?ler0n ?sum_sqr_ge0.
split=> [/eqP|->]; last by rewrite big1 ?mul0r // => i _; rewrite subrr expr0n.
by rewrite mulf_eq0 invr_eq0 pnatr_eq0 orbF sum_sqr_eq0 // => /eqP.
Qed.



(** X6: for a noise level that is not negative the sampler returns [n]
    values of [x] and [n] of [y]; the [x] are strictly increasing, hence
    pairwise distinct, and lie in [[0, 1]]. *)
Theorem generate_noisy_sin_points_increasing z n sigma :
  0 <= sigma ->
  exists x y,
    [/\ generate_noisy_sin_points sin pi z n sigma = Some (Array x, Array y),
        size x = n /\ size y = n,
        sorted <%R x,
        uniq x
      & all (fun a => 0 <= a <= 1) x].
Proof.
move=> sigma_ge0; rewrite generate_noisy_sin_pointsE le_gtF //.
do 2![eexists]; split; first by [].
- by rewrite size_linspace size_map size_iota.
- exact: linspace01_sorted.
- exact/lt_sorted_uniq/linspace01_sorted.
- exact: linspace01_range.
Qed.






(** X12: fit, evaluate, score raises exactly when [x] and [y] differ in
    length: the evaluator and the scorer accept whatever the fitter
    returns. *)
Theorem training_error_raises x y D :
  isSome (training_error x y D) = (size x == size y).
Proof.
case: eqP => [sz|/eqP ne]; first by rewrite training_error_some.
by rewrite /training_error /polynomial_regression (negPf ne).
Qed.

(** X13: the fit is linear in [y]. *)
Theorem polynomial_regression_linear x y1 y2 (a : F) D :
  size y1 = size x -> size y2 = size x ->
  exists w1 w2,
    [/\ polynomial_regression x y1 D = Some w1,
        polynomial_regression x y2 D = Some w2
      & polynomial_regression x [seq a * p.1 + p.2 | p <- zip y1 y2] D
        = Some [seq a * q.1 + q.2 | q <- zip w1 w2]].
Proof.
move=> sz1 sz2; exists (seq_of_col (w_star x y1 D)), (seq_of_col (w_star x y2 D)).
rewrite !polynomial_regression_some ?size_map ?size_zip ?sz1 ?sz2 ?minnn //.
by split=> //; rewrite w_star_lin // seq_of_col_lin.
Qed.

(** X14: on data that is 0 everywhere, the empty sample included, the
    fitter returns the zero coefficients. *)
Theorem polynomial_regression_zero_data x D :
  polynomial_regression x (nseq (size x) 0) D = Some (nseq D.+1 0).
Proof.
rewrite polynomial_regression_some ?size_nseq //.
by rewrite /w_star /= col_of_seq0 mulmx0 seq_of_col0.
Qed.

(** X15: whatever the noise draws, [__main__] raises nothing and runs its
    four rounds, for the degrees 0, 1, 3, 9 in this order; the errors it
    prints do not grow from one round to the next and the last one, of
    degree 9 on ten distinct points, is 0; every plotted curve has 100
    points. *)
Theorem main_report z :
  exists rows,
    [/\ main sin pi z = Some rows,
        [seq r.1.1 | r <- rows] = [:: 0; 1; 3; 9]%N,
        sorted (fun a b => b <= a) [seq r.1.2 | r <- rows],
        last 0 [seq r.1.2 | r <- rows] = 0
      & all (fun r => (shape r.2.1 == [:: 100%N]) && (shape r.2.2 == [:: 100%N]))
            rows].
Proof.
rewrite mainE; apply: main_rows; last exact: size_linspace.
  by rewrite size_linspace size_map size_iota.
exact/lt_sorted_uniq/linspace01_sorted.
Qed.


End MoreProperties.

(** * The further properties on the concrete sample *)

(** X2 on the sample. *)
Lemma polynomial_horner_witness :
  (0 < size sample_w)%N /\
  polynomial (Array sample_x) sample_w
  = Some (Array [seq (Poly sample_w).[a] | a <- sample_x]).
Proof.
split; first by [].
exact: (@polynomial_horner _ (Array sample_x) sample_w isT).
Defined.

(** X3 on the sample. *)
Lemma mean_squared_error_definite_witness :
  size sample_y = size sample_x /\
  exists e,
    mean_squared_error (Array sample_y) (Array sample_x) = Some e /\ 0 <= e.
Proof.
split; first by [].
have [e [score e_ge0 _]] :=
  @mean_squared_error_definite _ sample_y sample_x erefl.
by exists e.
Defined.

(** X6 at three points and noise level 0. *)
Lemma generate_noisy_sin_points_increasing_witness :
  0 <= (0 : rat) /\
  exists x y,
    [/\ generate_noisy_sin_points sin_taylor pi_approx (fun=> 1) 3 0
        = Some (Array x, Array y),
        sorted <%R x & uniq x].
Proof.
split; first exact: lexx.
have [x [y [gen _ sorted_x uniq_x _]]] :=
  @generate_noisy_sin_points_increasing _ sin_taylor pi_approx (fun=> 1) 3 0
    (lexx 0).
by exists x, y.
Defined.






(** X13 on the sample. *)
Lemma polynomial_regression_linear_witness :
  (size sample_y = size sample_x /\ size sample_x = size sample_x) /\
  exists w1 w2,
    [/\ polynomial_regression sample_x sample_y 1 = Some w1,
        polynomial_regression sample_x sample_x 1 = Some w2
      & polynomial_regression sample_x
          [seq 2%:R * p.1 + p.2 | p <- zip sample_y sample_x] 1
        = Some [seq 2%:R * q.1 + q.2 | q <- zip w1 w2]].
Proof.
split; first by [].
exact: (@polynomial_regression_linear _ sample_x sample_y sample_x 2%:R 1
          erefl erefl).
Defined.

